(** * EventManager.hpp: single-binding callback slots

    A shallow embedding of the four callback classes of [EventManager.hpp]
    ([EventCallbackVoid], [EventCallbackArg<P>], [EventCallbackRefArg<P>],
    [EventCallbackPtrArg<P>]) and the properties of [set] and [invoke].

    Modelling choices.
    - An object pointer is an address in [N]; [nullptr] is address 0.
    - A pointer to member function is a code label in [N]; the null member
      pointer is label 0.  What a label does is given by the program text, a
      table [text] from labels to method bodies, which every class takes as
      a section variable.
    - Memory is a finite map from addresses to cells of type [P] (the
      template parameter).  A method body is a function on memory that
      receives [this] and, for the one-argument shapes, the address of its
      parameter.
    - [set] is a template over the class [T] of the object.  What the
      model keeps of [T] is [base], the offset, in cells, of the
      [EventManager] base subobject inside a [T]: 0 when [EventManager] is
      the first or only base, more when other bases or members come first.
      [static_cast] to the base moves a non-null pointer by [base] and keeps
      null; [reinterpret_cast] keeps the member pointer as it is, so the
      stored method is later run on the moved pointer.
    - Member functions are state passing: [invoke] returns the slot together
      with the world, [set] returns the slot.
    - The world records, next to memory, the sequence of member calls that
      the slots performed, so that "which method ran on which object, how
      often" can be stated.
    - A slot is not one of the memory cells: a method body that reaches back
      into the slot that is calling it is outside this model, as is a call
      through a dangling or wrongly typed pointer (undefined in C++). *)

From Stdlib Require Import NArith ZArith Lia.
From stdpp Require Import gmap list.

Open Scope N_scope.

(** ** Pointers *)

Abbreviation addr := N (only parsing).
Abbreviation mptr := N (only parsing).

Definition nullptr : N := 0.

(** Contextual conversion of a pointer to [bool], as in [if (p && q)]. *)
Definition to_bool (p : N) : bool := negb (p =? nullptr).

(** [static_cast] of [object], a pointer to [T], to pointer to
    [EventManager], whose subobject lies [base] cells into a [T]: the null
    pointer stays null, any other pointer is moved to the subobject. *)
Definition static_cast (base : N) (object : addr) : addr :=
  if object =? nullptr then nullptr else object + base.

(** [reinterpret_cast] of [method] to the member-pointer type of class
    [EventManager] with the same parameter list: the value is kept, with
    no adjustment for [base]. *)
Definition reinterpret_cast (method : mptr) : mptr := method.

(** ** Worlds and member calls *)

Section World.
Context {P : Type}.

(** How the argument of a member call was passed. *)
Inductive passed : Type :=
| NoArg
| ByValue (v : P)
| ByRef (x : addr)
| ByPtr (p : addr).

(** One executed member call [(this->*method)(arg)]. *)
Record call : Type := Call {
  call_this : addr;
  call_method : mptr;
  call_arg : passed
}.

(** [mem]: the cells; [sp]: where the next automatic object is placed;
    [calls]: the member calls performed so far, oldest first. *)
Record world : Type := World {
  mem : gmap N P;
  sp : addr;
  calls : list call
}.

(** The caller assigns [v] to its variable at address [x]. *)
Definition assign (x : addr) (v : P) (w : world) : world :=
  {| mem := <[x := v]> (mem w); sp := sp w; calls := calls w |}.

(** [(object->*method)()]. *)
Definition call_void (text : mptr -> addr -> gmap N P -> gmap N P)
    (object : addr) (method : mptr) (w : world) : world :=
  {| mem := text method object (mem w);
     sp := sp w;
     calls := calls w ++ [Call object method NoArg] |}.

(** [(object->*method)(value)] for a parameter of type [P]: the callee's
    parameter is an automatic object of its own, copy-initialised from
    [value] and destroyed when the callee returns. *)
Definition call_value (text : mptr -> addr -> addr -> gmap N P -> gmap N P)
    (object : addr) (method : mptr) (value : P) (w : world) : world :=
  let param := sp w in
  {| mem := delete param (text method object param (<[param := value]> (mem w)));
     sp := sp w;
     calls := calls w ++ [Call object method (ByValue value)] |}.

(** [(object->*method)(value)] for a parameter of type [P&]: the callee's
    parameter is the caller's object, at address [value]. *)
Definition call_ref (text : mptr -> addr -> addr -> gmap N P -> gmap N P)
    (object : addr) (method : mptr) (value : addr) (w : world) : world :=
  {| mem := text method object value (mem w);
     sp := sp w;
     calls := calls w ++ [Call object method (ByRef value)] |}.

(** [(object->*method)(value)] for a parameter of type [P*]: the callee
    receives the pointer [value] itself. *)
Definition call_ptr (text : mptr -> addr -> addr -> gmap N P -> gmap N P)
    (object : addr) (method : mptr) (value : addr) (w : world) : world :=
  {| mem := text method object value (mem w);
     sp := sp w;
     calls := calls w ++ [Call object method (ByPtr value)] |}.

(** The member call [c] ran [method] on [object]. *)
Definition on (object : addr) (method : mptr) (c : call) : Prop :=
  call_this c = object /\ call_method c = method.
End World.

Arguments passed : clear implicits.
Arguments call : clear implicits.
Arguments world : clear implicits.

(** ** Clients *)

(** What a client does with a slot whose [invoke] takes an [A]. *)
Inductive op (A : Type) : Type :=
| CallSet (base : N) (object : addr) (method : mptr)
| CallInvoke (value : A).

Arguments CallSet {A} base object method.
Arguments CallInvoke {A} value.

(** One step of a client of any slot class with member functions [set] and
    [invoke]; the classes' own [step] functions are its instances. *)
Definition client_step {T A W : Type} (set : N -> addr -> mptr -> T -> T)
    (invoke : T -> A -> W -> T * W) (st : T * W) (o : op A) : T * W :=
  match o with
  | CallSet base object method => (set base object method st.1, st.2)
  | CallInvoke value => invoke st.1 value st.2
  end.

(** Every [set] of the script passes pointers accepted by [q]. *)
Definition set_args {A : Type} (q : addr -> mptr -> bool) (ops : list (op A)) : bool :=
  forallb (fun o => match o with
                    | CallSet _ object method => q object method
                    | CallInvoke _ => true
                    end) ops.

(** Both pointers null, or both non-null. *)
Definition paired (object : addr) (method : mptr) : bool :=
  eqb (to_bool object) (to_bool method).

(** Both pointers non-null. *)
Definition nonnull (object : addr) (method : mptr) : bool :=
  to_bool object && to_bool method.

(** The states of a slot, on its two fields: empty is what the default
    member initialisers give, bound is what [invoke] dispatches on. *)
Definition is_empty (f : addr * mptr) : bool :=
  negb (to_bool f.1) && negb (to_bool f.2).

Definition is_bound (f : addr * mptr) : bool :=
  to_bool f.1 && to_bool f.2.


(** ** class EventCallbackVoid *)

Module EventCallbackVoid.
Record t : Type := Build {
  m_object : addr;
  m_eventReceive : mptr
}.

(** The default member initialisers: both fields [nullptr]. *)
Definition init : t := {| m_object := nullptr; m_eventReceive := nullptr |}.

Definition fields (self : t) : addr * mptr := (m_object self, m_eventReceive self).

Definition set (base : N) (object : addr) (method : mptr) (self : t) : t :=
  let self := {| m_object := static_cast base object;
                 m_eventReceive := m_eventReceive self |} in
  {| m_object := m_object self;
     m_eventReceive := reinterpret_cast method |}.

Section Class.
Context {P : Type}.
Variable text : mptr -> addr -> gmap N P -> gmap N P.

Definition invoke (self : t) (w : world P) : t * world P :=
  if to_bool (m_object self) && to_bool (m_eventReceive self)
  then (self, call_void text (m_object self) (m_eventReceive self) w)
  else (self, w).

Definition step (st : t * world P) (o : op unit) : t * world P :=
  match o with
  | CallSet base object method => (set base object method st.1, st.2)
  | CallInvoke _ => invoke st.1 st.2
  end.

Definition run (ops : list (op unit)) (st : t * world P) : t * world P :=
  foldl step st ops.
End Class.
End EventCallbackVoid.

(** ** class EventCallbackArg<P> *)

Module EventCallbackArg.
Record t : Type := Build {
  m_object : addr;
  m_eventReceive : mptr
}.

Definition init : t := {| m_object := nullptr; m_eventReceive := nullptr |}.

Definition fields (self : t) : addr * mptr := (m_object self, m_eventReceive self).

Definition set (base : N) (object : addr) (method : mptr) (self : t) : t :=
  let self := {| m_object := static_cast base object;
                 m_eventReceive := m_eventReceive self |} in
  {| m_object := m_object self;
     m_eventReceive := reinterpret_cast method |}.

Section Class.
Context {P : Type}.
Variable text : mptr -> addr -> addr -> gmap N P -> gmap N P.

Definition invoke (self : t) (value : P) (w : world P) : t * world P :=
  if to_bool (m_object self) && to_bool (m_eventReceive self)
  then (self, call_value text (m_object self) (m_eventReceive self) value w)
  else (self, w).

Definition step (st : t * world P) (o : op P) : t * world P :=
  match o with
  | CallSet base object method => (set base object method st.1, st.2)
  | CallInvoke value => invoke st.1 value st.2
  end.

Definition run (ops : list (op P)) (st : t * world P) : t * world P :=
  foldl step st ops.
End Class.
End EventCallbackArg.

(** ** class EventCallbackRefArg<P> *)

Module EventCallbackRefArg.
Record t : Type := Build {
  m_object : addr;
  m_eventReceive : mptr
}.

Definition init : t := {| m_object := nullptr; m_eventReceive := nullptr |}.

Definition fields (self : t) : addr * mptr := (m_object self, m_eventReceive self).

Definition set (base : N) (object : addr) (method : mptr) (self : t) : t :=
  let self := {| m_object := static_cast base object;
                 m_eventReceive := m_eventReceive self |} in
  {| m_object := m_object self;
     m_eventReceive := reinterpret_cast method |}.

Section Class.
Context {P : Type}.
Variable text : mptr -> addr -> addr -> gmap N P -> gmap N P.

(** The reference [value] is the address of the object it is bound to. *)
Definition invoke (self : t) (value : addr) (w : world P) : t * world P :=
  if to_bool (m_object self) && to_bool (m_eventReceive self)
  then (self, call_ref text (m_object self) (m_eventReceive self) value w)
  else (self, w).

Definition step (st : t * world P) (o : op addr) : t * world P :=
  match o with
  | CallSet base object method => (set base object method st.1, st.2)
  | CallInvoke value => invoke st.1 value st.2
  end.

Definition run (ops : list (op addr)) (st : t * world P) : t * world P :=
  foldl step st ops.
End Class.
End EventCallbackRefArg.

(** ** class EventCallbackPtrArg<P> *)

Module EventCallbackPtrArg.
Record t : Type := Build {
  m_object : addr;
  m_eventReceive : mptr
}.

Definition init : t := {| m_object := nullptr; m_eventReceive := nullptr |}.

Definition fields (self : t) : addr * mptr := (m_object self, m_eventReceive self).

Definition set (base : N) (object : addr) (method : mptr) (self : t) : t :=
  let self := {| m_object := static_cast base object;
                 m_eventReceive := m_eventReceive self |} in
  {| m_object := m_object self;
     m_eventReceive := reinterpret_cast method |}.

Section Class.
Context {P : Type}.
Variable text : mptr -> addr -> addr -> gmap N P -> gmap N P.

Definition invoke (self : t) (value : addr) (w : world P) : t * world P :=
  if to_bool (m_object self) && to_bool (m_eventReceive self)
  then (self, call_ptr text (m_object self) (m_eventReceive self) value w)
  else (self, w).

Definition step (st : t * world P) (o : op addr) : t * world P :=
  match o with
  | CallSet base object method => (set base object method st.1, st.2)
  | CallInvoke value => invoke st.1 value st.2
  end.

Definition run (ops : list (op addr)) (st : t * world P) : t * world P :=
  foldl step st ops.
End Class.
End EventCallbackPtrArg.

(** ** Test programs

    The receivers of the spec's scenarios, over [int] cells.  An object of
    each class is one cell, at the object's address. *)

Module Demo.
(** [struct Counter { int n; void increment() { ++n; } };] *)
Definition Counter_increment (this : addr) (m : gmap N Z) : gmap N Z :=
  alter Z.succ this m.

(** Label 1 is [&Counter::increment]. *)
Definition text_void (method : mptr) : addr -> gmap N Z -> gmap N Z :=
  if method =? 1 then Counter_increment else fun _ m => m.

(** [void Scaler::twice(int v) { v *= 2; }], and the same body for
    [int& v]: it doubles the object its parameter names. *)
Definition Scaler_twice (this param : addr) (m : gmap N Z) : gmap N Z :=
  alter (Z.mul 2) param m.

(** [void Recorder::record(int v) { seen = v; }] *)
Definition Recorder_record (this param : addr) (m : gmap N Z) : gmap N Z :=
  match m !! param with
  | Some v => <[this := v]> m
  | None => m
  end.

(** Label 1 is [twice], label 2 is [record]. *)
Definition text_arg (method : mptr) : addr -> addr -> gmap N Z -> gmap N Z :=
  if method =? 1 then Scaler_twice
  else if method =? 2 then Recorder_record
  else fun _ _ m => m.

(** [void Probe::got(int* p) { seen = (p == nullptr) ? 0 : 1; }] *)
Definition Probe_got (this p : addr) (m : gmap N Z) : gmap N Z :=
  <[this := if p =? nullptr then 0%Z else 1%Z]> m.

(** Label 1 is [&Probe::got]. *)
Definition text_ptr (method : mptr) : addr -> addr -> gmap N Z -> gmap N Z :=
  if method =? 1 then Probe_got else fun _ _ m => m.

(** The receiver lives at address 16, the caller's variable at 8, and
    automatic objects start at 32. *)
Definition receiver : addr := 16.
Definition variable : addr := 8.

Definition world0 (n x : Z) : world Z :=
  {| mem := {[ receiver := n; variable := x ]}; sp := 32; calls := [] |}.

(** [struct Shifted : Holder, EventManager { ... }]: one cell of [Holder]
    comes before the [EventManager] base.  A [Shifted] counter at
    [receiver] has its count [n] in the first cell and whatever follows,
    here [y], in the next. *)
Definition Shifted_base : N := 1.

Definition world1 (n y : Z) : world Z :=
  {| mem := {[ receiver := n; receiver + 1 := y ]}; sp := 32; calls := [] |}.
End Demo.

(** ** What a script asks of a slot

    Read off the scripts alone, without running any method body: the pair a
    script leaves stored, the member calls it leads to, and how many
    [invoke]s it holds. *)

(** The pair stored after the script, from the pair [f] stored before it:
    the pointers of the last [set] as the casts convert them, or [f] when
    the script has no [set]. *)
Definition last_set {A : Type} (ops : list (op A)) (f : addr * mptr) : addr * mptr :=
  foldl (fun f o => match o with
                    | CallSet base object method =>
                        (static_cast base object, reinterpret_cast method)
                    | CallInvoke _ => f
                    end) f ops.

(** The member calls of the script, oldest first: one for each [invoke]
    reached while both stored pointers are non-null, on the pair stored at
    that moment, which is the converted pair of the last [set] before it. *)
Fixpoint dispatches {A : Type} (ops : list (op A)) (f : addr * mptr)
    : list (addr * mptr * A) :=
  match ops with
  | [] => []
  | CallSet base object method :: ops =>
      dispatches ops (static_cast base object, reinterpret_cast method)
  | CallInvoke value :: ops =>
      if is_bound f then (f.1, f.2, value) :: dispatches ops f
      else dispatches ops f
  end.

Fixpoint invokes {A : Type} (ops : list (op A)) : nat :=
  match ops with
  | [] => 0%nat
  | CallSet _ _ _ :: ops => invokes ops
  | CallInvoke _ :: ops => S (invokes ops)
  end.

(** The member call [c] goes through no null pointer. *)
Definition through_nonnull {P : Type} (c : call P) : Prop :=
  call_this c ≠ nullptr /\ call_method c ≠ nullptr.

(** * Properties *)

(** ** Pointer tests *)

Lemma to_bool_true (p : N) : to_bool p = true <-> p ≠ nullptr.
Proof.
  unfold to_bool, nullptr. rewrite negb_true_iff, N.eqb_neq. tauto.
Qed.

Lemma to_bool_false (p : N) : to_bool p = false <-> p = nullptr.
Proof.
  unfold to_bool, nullptr. rewrite negb_false_iff, N.eqb_eq. tauto.
Qed.

(** The cast to the base keeps null null and non-null non-null, and is the
    identity when the base is at offset 0. *)
Lemma to_bool_static_cast (base : N) (o : addr) :
  to_bool (static_cast base o) = to_bool o.
Proof.
  unfold static_cast, to_bool, nullptr.
  destruct (N.eqb_spec o 0) as [->|Ho]; [reflexivity|].
  destruct (N.eqb_spec (o + base) 0); [lia|reflexivity].
Qed.

Lemma static_cast_base0 (o : addr) : static_cast 0 o = o.
Proof.
  unfold static_cast, nullptr. destruct (N.eqb_spec o 0) as [->|Ho]; [reflexivity|].
  apply N.add_0_r.
Qed.

Lemma static_cast_nullptr (base : N) : static_cast base nullptr = nullptr.
Proof. reflexivity. Qed.

Lemma nonnull_static_cast (base : N) (o : addr) (m : mptr) :
  nonnull (static_cast base o) m = nonnull o m.
Proof. unfold nonnull. by rewrite to_bool_static_cast. Qed.

Lemma paired_static_cast (base : N) (o : addr) (m : mptr) :
  paired (static_cast base o) m = paired o m.
Proof. unfold paired. by rewrite to_bool_static_cast. Qed.

Lemma nonnull_true (o m : N) : nonnull o m = true <-> o ≠ nullptr /\ m ≠ nullptr.
Proof.
  unfold nonnull. rewrite andb_true_iff, !to_bool_true. tauto.
Qed.

Lemma nonnull_false (o m : N) : nonnull o m = false <-> o = nullptr \/ m = nullptr.
Proof.
  unfold nonnull. rewrite andb_false_iff, !to_bool_false. tauto.
Qed.

Lemma nonnull_paired (o m : N) : nonnull o m = true -> paired o m = true.
Proof.
  unfold nonnull, paired. destruct (to_bool o), (to_bool m); simpl; congruence.
Qed.


Lemma paired_states (f : addr * mptr) :
  paired f.1 f.2 = true <-> is_empty f = true \/ is_bound f = true.
Proof.
  unfold paired, is_empty, is_bound.
  destruct (to_bool f.1), (to_bool f.2); simpl; intuition congruence.
Qed.

Lemma set_args_cons {A} q (o : op A) ops :
  set_args q (o :: ops) = true ->
  match o with CallSet _ ob me => q ob me = true | CallInvoke _ => True end
  /\ set_args q ops = true.
Proof.
  unfold set_args. simpl. rewrite andb_true_iff. intros [H1 H2].
  split; [destruct o; auto | exact H2].
Qed.

Lemma set_args_weaken {A} (q r : addr -> mptr -> bool) (ops : list (op A)) :
  (forall o m, q o m = true -> r o m = true) ->
  set_args q ops = true -> set_args r ops = true.
Proof.
  intros Hqr. induction ops as [|o ops IH]; [done|].
  intros [Ho Hops]%set_args_cons. unfold set_args in *. simpl.
  rewrite (IH Hops), andb_true_r. destruct o; auto.
Qed.

(** ** The slot as a transition system

    The four classes have the same two fields and the same control flow, so
    the facts about scripts are proved once, over any type of slots with a
    projection to the fields, and instantiated four times. *)

Section Scripts.
Context {T A W : Type}.
Variable fields : T -> addr * mptr.
Variable set : N -> addr -> mptr -> T -> T.
Variable invoke : T -> A -> W -> T * W.
Variable call : addr -> mptr -> A -> W -> W.

Hypothesis fields_set : forall b o m s,
  fields (set b o m s) = (static_cast b o, reinterpret_cast m).
Hypothesis invoke_spec : forall s a w,
  invoke s a w = (s, if is_bound (fields s) then call (fields s).1 (fields s).2 a w else w).

Lemma invokes_keep_slot (vs : list A) s w :
  (foldl (client_step set invoke) (s, w) (CallInvoke <$> vs)).1 = s.
Proof.
  revert w. induction vs as [|v vs IH]; intros w; simpl; [done|].
  rewrite invoke_spec. apply IH.
Qed.

Lemma invokes_bound (vs : list A) s w :
  is_bound (fields s) = true ->
  foldl (client_step set invoke) (s, w) (CallInvoke <$> vs)
  = (s, foldl (fun w v => call (fields s).1 (fields s).2 v w) w vs).
Proof.
  intros Hb. revert w. induction vs as [|v vs IH]; intros w; simpl; [done|].
  rewrite invoke_spec, Hb. apply IH.
Qed.

Lemma invokes_unbound (vs : list A) s w :
  is_bound (fields s) = false ->
  foldl (client_step set invoke) (s, w) (CallInvoke <$> vs) = (s, w).
Proof.
  intros Hb. revert w. induction vs as [|v vs IH]; intros w; simpl; [done|].
  rewrite invoke_spec, Hb. apply IH.
Qed.

Lemma script_paired (ops : list (op A)) s w :
  set_args paired ops = true ->
  paired (fields s).1 (fields s).2 = true ->
  let s' := (foldl (client_step set invoke) (s, w) ops).1 in
  paired (fields s').1 (fields s').2 = true.
Proof.
  revert s w. induction ops as [|o ops IH]; intros s w Hops Hs; [done|].
  apply set_args_cons in Hops as [Ho Hops]. simpl.
  destruct o as [b ob me|v]; simpl.
  - apply IH; [done|]. rewrite fields_set. simpl.
    by rewrite paired_static_cast.
  - rewrite invoke_spec. by apply IH.
Qed.

Lemma script_stays_bound (ops : list (op A)) s w :
  set_args nonnull ops = true ->
  is_bound (fields s) = true ->
  is_bound (fields (foldl (client_step set invoke) (s, w) ops).1) = true.
Proof.
  revert s w. induction ops as [|o ops IH]; intros s w Hops Hs; [done|].
  apply set_args_cons in Hops as [Ho Hops]. simpl.
  destruct o as [b ob me|v]; simpl.
  - apply IH; [done|]. rewrite fields_set. unfold is_bound. simpl.
    by rewrite to_bool_static_cast.
  - rewrite invoke_spec. by apply IH.
Qed.
End Scripts.

(** ** The call trace of repeated member calls *)

Section Trace.
Context {P A : Type}.
Variable exec : A -> world P -> world P.
Variable event : A -> call P.
Hypothesis calls_call : forall a w, calls (exec a w) = calls w ++ [event a].

Lemma calls_foldl (vs : list A) (w : world P) :
  calls (foldl (fun w v => exec v w) w vs) = calls w ++ (event <$> vs).
Proof.
  revert w. induction vs as [|v vs IH]; intros w; simpl.
  - by rewrite app_nil_r.
  - by rewrite IH, calls_call, <- app_assoc.
Qed.
End Trace.

Lemma foldl_replicate_unit {W} (f : W -> W) (n : nat) (w : W) :
  foldl (fun w (_ : unit) => f w) w (replicate n ()) = Nat.iter n f w.
Proof.
  revert w. induction n as [|n IH]; intros w; [done|].
  change (foldl (fun w (_ : unit) => f w) (f w) (replicate n ()) = Nat.iter (S n) f w).
  by rewrite IH, Nat.iter_succ_r.
Qed.

Lemma fmap_replicate_unit {B} (b : B) (n : nat) :
  (fun _ : unit => b) <$> replicate n () = replicate n b.
Proof. apply fmap_replicate. Qed.

Lemma voids_replicate (n : nat) :
  replicate n (CallInvoke ()) = CallInvoke <$> replicate n ().
Proof. by rewrite fmap_replicate. Qed.

(** ** The four classes as instances *)

Ltac by_guard s :=
  destruct s as [o m]; simpl; unfold is_bound; simpl;
  destruct (to_bool o && to_bool m); reflexivity.

Lemma void_invoke_spec {P} (text : mptr -> addr -> gmap N P -> gmap N P) s (a : unit) w :
  EventCallbackVoid.invoke text s w
  = (s, if is_bound (EventCallbackVoid.fields s)
        then call_void text (EventCallbackVoid.fields s).1 (EventCallbackVoid.fields s).2 w
        else w).
Proof. unfold EventCallbackVoid.invoke. by_guard s. Qed.

Lemma arg_invoke_spec {P} (text : mptr -> addr -> addr -> gmap N P -> gmap N P) s a w :
  EventCallbackArg.invoke text s a w
  = (s, if is_bound (EventCallbackArg.fields s)
        then call_value text (EventCallbackArg.fields s).1 (EventCallbackArg.fields s).2 a w
        else w).
Proof. unfold EventCallbackArg.invoke. by_guard s. Qed.

Lemma ref_invoke_spec {P} (text : mptr -> addr -> addr -> gmap N P -> gmap N P) s a w :
  EventCallbackRefArg.invoke text s a w
  = (s, if is_bound (EventCallbackRefArg.fields s)
        then call_ref text (EventCallbackRefArg.fields s).1 (EventCallbackRefArg.fields s).2 a w
        else w).
Proof. unfold EventCallbackRefArg.invoke. by_guard s. Qed.

Lemma ptr_invoke_spec {P} (text : mptr -> addr -> addr -> gmap N P -> gmap N P) s a w :
  EventCallbackPtrArg.invoke text s a w
  = (s, if is_bound (EventCallbackPtrArg.fields s)
        then call_ptr text (EventCallbackPtrArg.fields s).1 (EventCallbackPtrArg.fields s).2 a w
        else w).
Proof. unfold EventCallbackPtrArg.invoke. by_guard s. Qed.

(** [run] of each class is the generic client loop. *)
Lemma void_run {P} (text : mptr -> addr -> gmap N P -> gmap N P) ops st :
  EventCallbackVoid.run text ops st
  = foldl (client_step EventCallbackVoid.set
             (fun s (_ : unit) w => EventCallbackVoid.invoke text s w)) st ops.
Proof. reflexivity. Qed.

Lemma arg_run {P} (text : mptr -> addr -> addr -> gmap N P -> gmap N P) ops st :
  EventCallbackArg.run text ops st
  = foldl (client_step EventCallbackArg.set (EventCallbackArg.invoke text)) st ops.
Proof. reflexivity. Qed.

Lemma ref_run {P} (text : mptr -> addr -> addr -> gmap N P -> gmap N P) ops st :
  EventCallbackRefArg.run text ops st
  = foldl (client_step EventCallbackRefArg.set (EventCallbackRefArg.invoke text)) st ops.
Proof. reflexivity. Qed.

Lemma ptr_run {P} (text : mptr -> addr -> addr -> gmap N P -> gmap N P) ops st :
  EventCallbackPtrArg.run text ops st
  = foldl (client_step EventCallbackPtrArg.set (EventCallbackPtrArg.invoke text)) st ops.
Proof. reflexivity. Qed.

(** After [set] with two non-null pointers, any number of [invoke]s are
    that many member calls of the method on the converted object pointer. *)
Lemma void_bound_invokes {P} (text : mptr -> addr -> gmap N P -> gmap N P) b o m s w n :
  o ≠ nullptr -> m ≠ nullptr ->
  EventCallbackVoid.run text (replicate n (CallInvoke ())) (EventCallbackVoid.set b o m s, w)
  = (EventCallbackVoid.set b o m s, Nat.iter n (call_void text (static_cast b o) m) w).
Proof.
  intros Ho Hm. rewrite void_run, voids_replicate.
  rewrite (invokes_bound EventCallbackVoid.fields EventCallbackVoid.set _
             (fun o m (_ : unit) w => call_void text o m w)).
  - simpl. by rewrite foldl_replicate_unit.
  - intros. by apply void_invoke_spec.
  - change (nonnull (static_cast b o) m = true).
    rewrite nonnull_static_cast. by apply nonnull_true.
Qed.

Lemma arg_bound_invokes {P} (text : mptr -> addr -> addr -> gmap N P -> gmap N P) b o m s w vs :
  o ≠ nullptr -> m ≠ nullptr ->
  EventCallbackArg.run text (CallInvoke <$> vs) (EventCallbackArg.set b o m s, w)
  = (EventCallbackArg.set b o m s,
     foldl (fun w v => call_value text (static_cast b o) m v w) w vs).
Proof.
  intros Ho Hm. rewrite arg_run.
  rewrite (invokes_bound EventCallbackArg.fields EventCallbackArg.set _ (call_value text));
    [done | apply arg_invoke_spec |].
  change (nonnull (static_cast b o) m = true).
    rewrite nonnull_static_cast. by apply nonnull_true.
Qed.

Lemma ref_bound_invokes {P} (text : mptr -> addr -> addr -> gmap N P -> gmap N P) b o m s w vs :
  o ≠ nullptr -> m ≠ nullptr ->
  EventCallbackRefArg.run text (CallInvoke <$> vs) (EventCallbackRefArg.set b o m s, w)
  = (EventCallbackRefArg.set b o m s,
     foldl (fun w v => call_ref text (static_cast b o) m v w) w vs).
Proof.
  intros Ho Hm. rewrite ref_run.
  rewrite (invokes_bound EventCallbackRefArg.fields EventCallbackRefArg.set _ (call_ref text));
    [done | apply ref_invoke_spec |].
  change (nonnull (static_cast b o) m = true).
    rewrite nonnull_static_cast. by apply nonnull_true.
Qed.

Lemma ptr_bound_invokes {P} (text : mptr -> addr -> addr -> gmap N P -> gmap N P) b o m s w vs :
  o ≠ nullptr -> m ≠ nullptr ->
  EventCallbackPtrArg.run text (CallInvoke <$> vs) (EventCallbackPtrArg.set b o m s, w)
  = (EventCallbackPtrArg.set b o m s,
     foldl (fun w v => call_ptr text (static_cast b o) m v w) w vs).
Proof.
  intros Ho Hm. rewrite ptr_run.
  rewrite (invokes_bound EventCallbackPtrArg.fields EventCallbackPtrArg.set _ (call_ptr text));
    [done | apply ptr_invoke_spec |].
  change (nonnull (static_cast b o) m = true).
    rewrite nonnull_static_cast. by apply nonnull_true.
Qed.

Lemma calls_iter_void {P} (text : mptr -> addr -> gmap N P -> gmap N P) o m (w : world P) n :
  calls (Nat.iter n (call_void text o m) w) = calls w ++ replicate n (Call o m NoArg).
Proof.
  rewrite <- foldl_replicate_unit.
  rewrite (calls_foldl (fun _ : unit => call_void text o m) (fun _ => Call o m NoArg)); [|done].
  by rewrite fmap_replicate_unit.
Qed.

Lemma mem_iter_void {P} (text : mptr -> addr -> gmap N P -> gmap N P) o m (w : world P) n :
  mem (Nat.iter n (call_void text o m) w) = Nat.iter n (text m o) (mem w).
Proof. induction n as [|n IH]; simpl; [done|]. by rewrite IH. Qed.

(** Memory after a run of member calls, in terms of the method body. *)
Lemma mem_foldl_value {P} (text : mptr -> addr -> addr -> gmap N P -> gmap N P)
    o m (w : world P) vs :
  mem (foldl (fun w v => call_value text o m v w) w vs)
  = foldl (fun st v => delete (sp w) (text m o (sp w) (<[sp w := v]> st))) (mem w) vs.
Proof.
  revert w. induction vs as [|v vs IH]; intros w; [done|].
  simpl. by rewrite IH.
Qed.

Lemma mem_foldl_ref {P} (text : mptr -> addr -> addr -> gmap N P -> gmap N P)
    o m (w : world P) xs :
  mem (foldl (fun w x => call_ref text o m x w) w xs)
  = foldl (fun st x => text m o x st) (mem w) xs.
Proof.
  revert w. induction xs as [|x xs IH]; intros w; [done|].
  simpl. by rewrite IH.
Qed.

Lemma mem_foldl_ptr {P} (text : mptr -> addr -> addr -> gmap N P -> gmap N P)
    o m (w : world P) ps :
  mem (foldl (fun w p => call_ptr text o m p w) w ps)
  = foldl (fun st p => text m o p st) (mem w) ps.
Proof.
  revert w. induction ps as [|p ps IH]; intros w; [done|].
  simpl. by rewrite IH.
Qed.

(** ** Which calls a run of [invoke]s adds to the trace *)

Section Dispatch.
Context {P T A : Type}.
Variable fields : T -> addr * mptr.
Variable set : N -> addr -> mptr -> T -> T.
Variable invoke : T -> A -> world P -> T * world P.
Variable exec : addr -> mptr -> A -> world P -> world P.
Variable event : A -> passed P.

Hypothesis invoke_spec : forall s a w,
  invoke s a w = (s, if is_bound (fields s) then exec (fields s).1 (fields s).2 a w else w).
Hypothesis calls_exec : forall o m a w,
  calls (exec o m a w) = calls w ++ [Call o m (event a)].

Lemma invokes_trace (vs : list A) s w :
  exists new,
    calls (foldl (client_step set invoke) (s, w) (CallInvoke <$> vs)).2 = calls w ++ new
    /\ Forall (on (fields s).1 (fields s).2) new.
Proof.
  destruct (is_bound (fields s)) eqn:Hb.
  - exists ((fun v => Call (fields s).1 (fields s).2 (event v)) <$> vs). split.
    + rewrite (invokes_bound fields set invoke exec); [|done|done]. simpl.
      by apply (calls_foldl (exec (fields s).1 (fields s).2)).
    + apply Forall_fmap, Forall_forall. intros v _. by split.
  - exists []. split; [|constructor].
    rewrite (invokes_unbound fields set invoke exec); [|done|done].
    simpl. by rewrite app_nil_r.
Qed.
End Dispatch.

Lemma on_other {P} (o1 m1 o2 m2 : N) (new : list (call P)) :
  (o1, m1) ≠ (o2, m2) -> Forall (on o2 m2) new -> Forall (fun c => ¬ on o1 m1 c) new.
Proof.
  intros Hne Hnew. eapply Forall_impl; [exact Hnew|].
  intros c [H1 H2] [H3 H4]. apply Hne. congruence.
Qed.

(** * The claims *)

(** C1, as the code has it.  [set] stores the address of the object's
    [EventManager] base, and [invoke] runs the method there.  In every
    class, for an object of a class whose [EventManager] base is at offset
    0, after [set] with a non-null object [o] and a non-null method [m]
    each later [invoke] is exactly one member call of [m] on [o] with the
    argument given: the slot is left as it is, the call trace grows by one
    entry [Call o m _] per [invoke], and memory is what the body of [m],
    run on [o], makes of it.  In particular, a no-argument slot bound to
    [Counter::increment] and invoked three times takes the counter from 0
    to 3. *)
Theorem bind_then_invoke_calls_bound_method :
  forall (P : Type) (base : N) (o : addr) (m : mptr),
    base = 0 -> o ≠ nullptr -> m ≠ nullptr ->
    (forall (text : mptr -> addr -> gmap N P -> gmap N P) s w n,
        let w' := Nat.iter n (call_void text o m) w in
        EventCallbackVoid.run text (replicate n (CallInvoke ()))
          (EventCallbackVoid.set base o m s, w)
        = (EventCallbackVoid.set base o m s, w')
        /\ calls w' = calls w ++ replicate n (Call o m NoArg)
        /\ mem w' = Nat.iter n (text m o) (mem w))
    /\ (forall (text : mptr -> addr -> addr -> gmap N P -> gmap N P) s w vs,
        let w' := foldl (fun w v => call_value text o m v w) w vs in
        EventCallbackArg.run text (CallInvoke <$> vs) (EventCallbackArg.set base o m s, w)
        = (EventCallbackArg.set base o m s, w')
        /\ calls w' = calls w ++ ((fun v => Call o m (ByValue v)) <$> vs)
        /\ mem w' = foldl (fun st v =>
                             delete (sp w) (text m o (sp w) (<[sp w := v]> st)))
                          (mem w) vs)
    /\ (forall (text : mptr -> addr -> addr -> gmap N P -> gmap N P) s w xs,
        let w' := foldl (fun w x => call_ref text o m x w) w xs in
        EventCallbackRefArg.run text (CallInvoke <$> xs)
          (EventCallbackRefArg.set base o m s, w)
        = (EventCallbackRefArg.set base o m s, w')
        /\ calls w' = calls w ++ ((fun x => Call o m (ByRef x)) <$> xs)
        /\ mem w' = foldl (fun st x => text m o x st) (mem w) xs)
    /\ (forall (text : mptr -> addr -> addr -> gmap N P -> gmap N P) s w ps,
        let w' := foldl (fun w p => call_ptr text o m p w) w ps in
        EventCallbackPtrArg.run text (CallInvoke <$> ps)
          (EventCallbackPtrArg.set base o m s, w)
        = (EventCallbackPtrArg.set base o m s, w')
        /\ calls w' = calls w ++ ((fun p => Call o m (ByPtr p)) <$> ps)
        /\ mem w' = foldl (fun st p => text m o p st) (mem w) ps)
    /\ mem (EventCallbackVoid.run Demo.text_void (replicate 3 (CallInvoke ()))
              (EventCallbackVoid.set 0 Demo.receiver 1 EventCallbackVoid.init,
               Demo.world0 0 0)).2 !! Demo.receiver = Some 3%Z.
Proof.
  intros P base o m -> Ho Hm. split; [|split; [|split; [|split]]].
  - intros text s w n w'. split; [|split].
    + rewrite void_bound_invokes by done. by rewrite static_cast_base0.
    + apply calls_iter_void.
    + apply mem_iter_void.
  - intros text s w vs w'. split; [|split].
    + rewrite arg_bound_invokes by done. by rewrite static_cast_base0.
    + by apply (calls_foldl (call_value text o m) (fun v => Call o m (ByValue v))).
    + apply mem_foldl_value.
  - intros text s w xs w'. split; [|split].
    + rewrite ref_bound_invokes by done. by rewrite static_cast_base0.
    + by apply (calls_foldl (call_ref text o m) (fun x => Call o m (ByRef x))).
    + apply mem_foldl_ref.
  - intros text s w ps w'. split; [|split].
    + rewrite ptr_bound_invokes by done. by rewrite static_cast_base0.
    + by apply (calls_foldl (call_ptr text o m) (fun p => Call o m (ByPtr p))).
    + apply mem_foldl_ptr.
  - vm_compute. reflexivity.
Qed.

Lemma bind_then_invoke_witness :
  (0 : N) = 0 /\ Demo.receiver ≠ nullptr /\ (2 : N) ≠ nullptr
  /\ calls (EventCallbackArg.run Demo.text_arg (CallInvoke <$> [5%Z; 7%Z])
              (EventCallbackArg.set 0 Demo.receiver 2 EventCallbackArg.init,
               Demo.world0 0 0)).2
     = [Call Demo.receiver 2 (ByValue 5%Z); Call Demo.receiver 2 (ByValue 7%Z)].
Proof.
  assert (H16 : Demo.receiver ≠ nullptr) by (unfold Demo.receiver, nullptr; lia).
  assert (H2 : (2 : N) ≠ nullptr) by (unfold nullptr; lia).
  split; [reflexivity|]. split; [exact H16|]. split; [exact H2|].
  destruct (bind_then_invoke_calls_bound_method Z 0 Demo.receiver 2 eq_refl H16 H2)
    as (_ & Harg & _).
  destruct (Harg Demo.text_arg EventCallbackArg.init (Demo.world0 0 0) [5%Z; 7%Z])
    as (Hrun & Hcalls & _).
  rewrite Hrun. exact Hcalls.
Defined.

(** C1 as stated fails for an object whose [EventManager] base is not at
    offset 0: a [Shifted] counter is bound with non-null pointers and the
    slot invoked three times; the three calls run [increment] one cell
    past the object, and the counter still reads 0. *)
Lemma shifted_object_is_not_the_one_called :
  let st := EventCallbackVoid.run Demo.text_void (replicate 3 (CallInvoke ()))
              (EventCallbackVoid.set Demo.Shifted_base Demo.receiver 1
                 EventCallbackVoid.init, Demo.world1 0 100) in
  Demo.receiver ≠ nullptr /\ (1 : N) ≠ nullptr
  /\ calls st.2 = replicate 3 (Call (Demo.receiver + 1) 1 NoArg)
  /\ mem st.2 !! Demo.receiver = Some 0%Z
  /\ mem st.2 !! Demo.receiver ≠ Some 3%Z
  /\ mem st.2 !! (Demo.receiver + 1) = Some 103%Z.
Proof.
  vm_compute. repeat split; discriminate.
Qed.

(** C2.  In every class, [invoke] on the slot as constructed (never bound)
    returns the slot and the world it was given: no member call is made,
    memory and the call trace are the same, and the slot is still empty. *)
Theorem invoke_on_empty_slot_is_noop :
  forall (P : Type),
    (forall (text : mptr -> addr -> gmap N P -> gmap N P) w,
        EventCallbackVoid.invoke text EventCallbackVoid.init w
        = (EventCallbackVoid.init, w))
    /\ (forall (text : mptr -> addr -> addr -> gmap N P -> gmap N P) value w,
        EventCallbackArg.invoke text EventCallbackArg.init value w
        = (EventCallbackArg.init, w))
    /\ (forall (text : mptr -> addr -> addr -> gmap N P -> gmap N P) value w,
        EventCallbackRefArg.invoke text EventCallbackRefArg.init value w
        = (EventCallbackRefArg.init, w))
    /\ (forall (text : mptr -> addr -> addr -> gmap N P -> gmap N P) value w,
        EventCallbackPtrArg.invoke text EventCallbackPtrArg.init value w
        = (EventCallbackPtrArg.init, w)).
Proof.
  intros P. split; [|split; [|split]]; reflexivity.
Qed.

(** C8.  In every class and every slot state, [invoke] returns the slot it
    was called on, fields unchanged, and so does any run of [invoke]s. *)
Theorem invoke_keeps_binding :
  forall (P : Type),
    (forall (text : mptr -> addr -> gmap N P -> gmap N P) s w n,
        (EventCallbackVoid.invoke text s w).1 = s
        /\ (EventCallbackVoid.run text (replicate n (CallInvoke ())) (s, w)).1 = s)
    /\ (forall (text : mptr -> addr -> addr -> gmap N P -> gmap N P) s value w vs,
        (EventCallbackArg.invoke text s value w).1 = s
        /\ (EventCallbackArg.run text (CallInvoke <$> vs) (s, w)).1 = s)
    /\ (forall (text : mptr -> addr -> addr -> gmap N P -> gmap N P) s value w vs,
        (EventCallbackRefArg.invoke text s value w).1 = s
        /\ (EventCallbackRefArg.run text (CallInvoke <$> vs) (s, w)).1 = s)
    /\ (forall (text : mptr -> addr -> addr -> gmap N P -> gmap N P) s value w vs,
        (EventCallbackPtrArg.invoke text s value w).1 = s
        /\ (EventCallbackPtrArg.run text (CallInvoke <$> vs) (s, w)).1 = s).
Proof.
  intros P. split; [|split; [|split]].
  - intros text s w n. split; [by rewrite (void_invoke_spec text s ())|].
    rewrite void_run, voids_replicate.
    apply (invokes_keep_slot EventCallbackVoid.fields EventCallbackVoid.set _
             (fun o m (_ : unit) w => call_void text o m w)).
    intros. by apply void_invoke_spec.
  - intros text s value w vs. split; [by rewrite arg_invoke_spec|].
    rewrite arg_run.
    apply (invokes_keep_slot EventCallbackArg.fields EventCallbackArg.set _ (call_value text)).
    apply arg_invoke_spec.
  - intros text s value w vs. split; [by rewrite ref_invoke_spec|].
    rewrite ref_run.
    apply (invokes_keep_slot EventCallbackRefArg.fields EventCallbackRefArg.set _ (call_ref text)).
    apply ref_invoke_spec.
  - intros text s value w vs. split; [by rewrite ptr_invoke_spec|].
    rewrite ptr_run.
    apply (invokes_keep_slot EventCallbackPtrArg.fields EventCallbackPtrArg.set _ (call_ptr text)).
    apply ptr_invoke_spec.
Qed.

(** C10.  In every class, [set] with a null object or a null method is an
    ordinary call: it stores the converted object pointer and the method, a
    null pointer as null (and both as given when the base is at offset 0),
    and [invoke] on the resulting slot returns the slot and the world
    unchanged: no member call is made. *)
Theorem set_null_then_invoke_is_noop :
  forall (P : Type) (base : N) (o : addr) (m : mptr),
    o = nullptr \/ m = nullptr ->
    (forall (text : mptr -> addr -> gmap N P -> gmap N P) s w,
        let s' := EventCallbackVoid.set base o m s in
        EventCallbackVoid.fields s' = (static_cast base o, m)
        /\ (o = nullptr -> EventCallbackVoid.m_object s' = nullptr)
        /\ (m = nullptr -> EventCallbackVoid.m_eventReceive s' = nullptr)
        /\ (base = 0 -> EventCallbackVoid.fields s' = (o, m))
        /\ EventCallbackVoid.invoke text s' w = (s', w))
    /\ (forall (text : mptr -> addr -> addr -> gmap N P -> gmap N P) s value w,
        let s' := EventCallbackArg.set base o m s in
        EventCallbackArg.fields s' = (static_cast base o, m)
        /\ (o = nullptr -> EventCallbackArg.m_object s' = nullptr)
        /\ (m = nullptr -> EventCallbackArg.m_eventReceive s' = nullptr)
        /\ (base = 0 -> EventCallbackArg.fields s' = (o, m))
        /\ EventCallbackArg.invoke text s' value w = (s', w))
    /\ (forall (text : mptr -> addr -> addr -> gmap N P -> gmap N P) s value w,
        let s' := EventCallbackRefArg.set base o m s in
        EventCallbackRefArg.fields s' = (static_cast base o, m)
        /\ (o = nullptr -> EventCallbackRefArg.m_object s' = nullptr)
        /\ (m = nullptr -> EventCallbackRefArg.m_eventReceive s' = nullptr)
        /\ (base = 0 -> EventCallbackRefArg.fields s' = (o, m))
        /\ EventCallbackRefArg.invoke text s' value w = (s', w))
    /\ (forall (text : mptr -> addr -> addr -> gmap N P -> gmap N P) s value w,
        let s' := EventCallbackPtrArg.set base o m s in
        EventCallbackPtrArg.fields s' = (static_cast base o, m)
        /\ (o = nullptr -> EventCallbackPtrArg.m_object s' = nullptr)
        /\ (m = nullptr -> EventCallbackPtrArg.m_eventReceive s' = nullptr)
        /\ (base = 0 -> EventCallbackPtrArg.fields s' = (o, m))
        /\ EventCallbackPtrArg.invoke text s' value w = (s', w)).
Proof.
  intros P base o m Hnull%nonnull_false.
  rewrite <- (nonnull_static_cast base) in Hnull.
  split; [|split; [|split]]; intros; subst s';
    (split; [reflexivity|]);
    (split; [by intros ->|]);
    (split; [by intros ->|]);
    (split; [intros ->; exact (f_equal (fun x => (x, m)) (static_cast_base0 o))|]).
  - rewrite (void_invoke_spec text _ ()).
    by replace (is_bound _) with false by (symmetry; exact Hnull).
  - rewrite arg_invoke_spec.
    by replace (is_bound _) with false by (symmetry; exact Hnull).
  - rewrite ref_invoke_spec.
    by replace (is_bound _) with false by (symmetry; exact Hnull).
  - rewrite ptr_invoke_spec.
    by replace (is_bound _) with false by (symmetry; exact Hnull).
Qed.

Lemma set_null_then_invoke_witness :
  (Demo.receiver = nullptr \/ (0 : N) = nullptr)
  /\ EventCallbackVoid.invoke Demo.text_void
       (EventCallbackVoid.set Demo.Shifted_base Demo.receiver 0 EventCallbackVoid.init)
       (Demo.world0 0 0)
     = (EventCallbackVoid.Build (Demo.receiver + 1) 0, Demo.world0 0 0).
Proof.
  assert (H : Demo.receiver = nullptr \/ (0 : N) = nullptr) by (right; reflexivity).
  split; [exact H|].
  destruct (set_null_then_invoke_is_noop Z Demo.Shifted_base Demo.receiver 0 H)
    as (Hvoid & _).
  destruct (Hvoid Demo.text_void EventCallbackVoid.init (Demo.world0 0 0))
    as (_ & _ & _ & _ & Hinv).
  exact Hinv.
Defined.

Lemma void_invokes_on_slot {P} (text : mptr -> addr -> gmap N P -> gmap N P) o m (w : world P) (vs : list unit) :
  EventCallbackVoid.run text (CallInvoke <$> vs) (EventCallbackVoid.Build o m, w)
  = (EventCallbackVoid.Build o m,
     if nonnull o m then foldl (fun w v => call_void text o m w) w vs else w).
Proof.
  rewrite void_run. destruct (nonnull o m) eqn:Hom.
  - by rewrite (invokes_bound EventCallbackVoid.fields EventCallbackVoid.set _ (fun o m (_ : unit) w => call_void text o m w))
      by first [exact Hom | intros; by apply void_invoke_spec].
  - by rewrite (invokes_unbound EventCallbackVoid.fields EventCallbackVoid.set _ (fun o m (_ : unit) w => call_void text o m w))
      by first [exact Hom | intros; by apply void_invoke_spec].
Qed.

Lemma arg_invokes_on_slot {P} (text : mptr -> addr -> addr -> gmap N P -> gmap N P) o m (w : world P) (vs : list P) :
  EventCallbackArg.run text (CallInvoke <$> vs) (EventCallbackArg.Build o m, w)
  = (EventCallbackArg.Build o m,
     if nonnull o m then foldl (fun w v => call_value text o m v w) w vs else w).
Proof.
  rewrite arg_run. destruct (nonnull o m) eqn:Hom.
  - by rewrite (invokes_bound EventCallbackArg.fields EventCallbackArg.set _ (call_value text))
      by first [exact Hom | intros; by apply arg_invoke_spec].
  - by rewrite (invokes_unbound EventCallbackArg.fields EventCallbackArg.set _ (call_value text))
      by first [exact Hom | intros; by apply arg_invoke_spec].
Qed.

Lemma ref_invokes_on_slot {P} (text : mptr -> addr -> addr -> gmap N P -> gmap N P) o m (w : world P) (vs : list addr) :
  EventCallbackRefArg.run text (CallInvoke <$> vs) (EventCallbackRefArg.Build o m, w)
  = (EventCallbackRefArg.Build o m,
     if nonnull o m then foldl (fun w v => call_ref text o m v w) w vs else w).
Proof.
  rewrite ref_run. destruct (nonnull o m) eqn:Hom.
  - by rewrite (invokes_bound EventCallbackRefArg.fields EventCallbackRefArg.set _ (call_ref text))
      by first [exact Hom | intros; by apply ref_invoke_spec].
  - by rewrite (invokes_unbound EventCallbackRefArg.fields EventCallbackRefArg.set _ (call_ref text))
      by first [exact Hom | intros; by apply ref_invoke_spec].
Qed.

Lemma ptr_invokes_on_slot {P} (text : mptr -> addr -> addr -> gmap N P -> gmap N P) o m (w : world P) (vs : list addr) :
  EventCallbackPtrArg.run text (CallInvoke <$> vs) (EventCallbackPtrArg.Build o m, w)
  = (EventCallbackPtrArg.Build o m,
     if nonnull o m then foldl (fun w v => call_ptr text o m v w) w vs else w).
Proof.
  rewrite ptr_run. destruct (nonnull o m) eqn:Hom.
  - by rewrite (invokes_bound EventCallbackPtrArg.fields EventCallbackPtrArg.set _ (call_ptr text))
      by first [exact Hom | intros; by apply ptr_invoke_spec].
  - by rewrite (invokes_unbound EventCallbackPtrArg.fields EventCallbackPtrArg.set _ (call_ptr text))
      by first [exact Hom | intros; by apply ptr_invoke_spec].
Qed.

Lemma calls_if_foldl {P A} (exec : A -> world P -> world P) (event : A -> call P)
    (c : bool) (w : world P) (vs : list A) :
  (forall a w, calls (exec a w) = calls w ++ [event a]) ->
  calls (if c then foldl (fun w v => exec v w) w vs else w)
  = calls w ++ (if c then event <$> vs else []).
Proof.
  intros Hexec. destruct c; [by apply calls_foldl|by rewrite app_nil_r].
Qed.

Lemma on_if_fmap {P A} (c : bool) o m (arg : A -> passed P) (vs : list A) :
  Forall (on o m) (if c then (fun v => Call o m (arg v)) <$> vs else []).
Proof.
  destruct c; [|constructor]. apply Forall_fmap, Forall_forall. intros v _. by split.
Qed.

(** C4, as the code has it.  In every class, a second [set] with a
    different pair, for a new object of a class whose [EventManager] base is
    at offset 0, overwrites both fields: the slot holds the new pair only;
    when the new pointers are non-null each later [invoke] is one member
    call of the new method on the new object, and when one is null no call
    is made; no call is on the pair bound before. *)
Theorem rebind_replaces_binding :
  forall (P : Type) (b1 b2 : N) (o1 : addr) (m1 : mptr) (o2 : addr) (m2 : mptr),
    b2 = 0 -> (o1, m1) ≠ (o2, m2) ->
    (forall (text : mptr -> addr -> gmap N P -> gmap N P) s w (vs : list unit),
        let s2 := EventCallbackVoid.set b2 o2 m2 (EventCallbackVoid.set b1 o1 m1 s) in
        let new := if nonnull o2 m2
                   then (fun v => Call o2 m2 NoArg) <$> vs else [] in
        s2 = EventCallbackVoid.Build o2 m2
        /\ EventCallbackVoid.run text (CallInvoke <$> vs) (s2, w)
           = (s2, if nonnull o2 m2
                  then foldl (fun w v => call_void text o2 m2 w) w vs else w)
        /\ calls (EventCallbackVoid.run text (CallInvoke <$> vs) (s2, w)).2 = calls w ++ new
        /\ Forall (on o2 m2) new /\ Forall (fun c => ¬ on o1 m1 c) new)
    /\ (forall (text : mptr -> addr -> addr -> gmap N P -> gmap N P) s w (vs : list P),
        let s2 := EventCallbackArg.set b2 o2 m2 (EventCallbackArg.set b1 o1 m1 s) in
        let new := if nonnull o2 m2
                   then (fun v => Call o2 m2 (ByValue v)) <$> vs else [] in
        s2 = EventCallbackArg.Build o2 m2
        /\ EventCallbackArg.run text (CallInvoke <$> vs) (s2, w)
           = (s2, if nonnull o2 m2
                  then foldl (fun w v => call_value text o2 m2 v w) w vs else w)
        /\ calls (EventCallbackArg.run text (CallInvoke <$> vs) (s2, w)).2 = calls w ++ new
        /\ Forall (on o2 m2) new /\ Forall (fun c => ¬ on o1 m1 c) new)
    /\ (forall (text : mptr -> addr -> addr -> gmap N P -> gmap N P) s w (vs : list addr),
        let s2 := EventCallbackRefArg.set b2 o2 m2 (EventCallbackRefArg.set b1 o1 m1 s) in
        let new := if nonnull o2 m2
                   then (fun v => Call o2 m2 (ByRef v)) <$> vs else [] in
        s2 = EventCallbackRefArg.Build o2 m2
        /\ EventCallbackRefArg.run text (CallInvoke <$> vs) (s2, w)
           = (s2, if nonnull o2 m2
                  then foldl (fun w v => call_ref text o2 m2 v w) w vs else w)
        /\ calls (EventCallbackRefArg.run text (CallInvoke <$> vs) (s2, w)).2 = calls w ++ new
        /\ Forall (on o2 m2) new /\ Forall (fun c => ¬ on o1 m1 c) new)
    /\ (forall (text : mptr -> addr -> addr -> gmap N P -> gmap N P) s w (vs : list addr),
        let s2 := EventCallbackPtrArg.set b2 o2 m2 (EventCallbackPtrArg.set b1 o1 m1 s) in
        let new := if nonnull o2 m2
                   then (fun v => Call o2 m2 (ByPtr v)) <$> vs else [] in
        s2 = EventCallbackPtrArg.Build o2 m2
        /\ EventCallbackPtrArg.run text (CallInvoke <$> vs) (s2, w)
           = (s2, if nonnull o2 m2
                  then foldl (fun w v => call_ptr text o2 m2 v w) w vs else w)
        /\ calls (EventCallbackPtrArg.run text (CallInvoke <$> vs) (s2, w)).2 = calls w ++ new
        /\ Forall (on o2 m2) new /\ Forall (fun c => ¬ on o1 m1 c) new).
Proof.
  intros P b1 b2 o1 m1 o2 m2 -> Hne. split; [|split; [|split]].
  - intros text s w vs s2 new.
    assert (Hs2 : s2 = EventCallbackVoid.Build o2 m2)
      by exact (f_equal (fun x => EventCallbackVoid.Build x m2) (static_cast_base0 o2)).
    rewrite Hs2, void_invokes_on_slot. simpl.
    split; [done|]. split; [done|]. split.
    { by apply (calls_if_foldl (fun _ : unit => call_void text o2 m2)
                  (fun _ => Call o2 m2 NoArg)). }
    split; [apply on_if_fmap|]. eapply on_other; [exact Hne|apply on_if_fmap].
  - intros text s w vs s2 new.
    assert (Hs2 : s2 = EventCallbackArg.Build o2 m2)
      by exact (f_equal (fun x => EventCallbackArg.Build x m2) (static_cast_base0 o2)).
    rewrite Hs2, arg_invokes_on_slot. simpl.
    split; [done|]. split; [done|]. split.
    { by apply (calls_if_foldl (call_value text o2 m2)
                  (fun v => Call o2 m2 (ByValue v))). }
    split; [apply on_if_fmap|]. eapply on_other; [exact Hne|apply on_if_fmap].
  - intros text s w vs s2 new.
    assert (Hs2 : s2 = EventCallbackRefArg.Build o2 m2)
      by exact (f_equal (fun x => EventCallbackRefArg.Build x m2) (static_cast_base0 o2)).
    rewrite Hs2, ref_invokes_on_slot. simpl.
    split; [done|]. split; [done|]. split.
    { by apply (calls_if_foldl (call_ref text o2 m2)
                  (fun v => Call o2 m2 (ByRef v))). }
    split; [apply on_if_fmap|]. eapply on_other; [exact Hne|apply on_if_fmap].
  - intros text s w vs s2 new.
    assert (Hs2 : s2 = EventCallbackPtrArg.Build o2 m2)
      by exact (f_equal (fun x => EventCallbackPtrArg.Build x m2) (static_cast_base0 o2)).
    rewrite Hs2, ptr_invokes_on_slot. simpl.
    split; [done|]. split; [done|]. split.
    { by apply (calls_if_foldl (call_ptr text o2 m2)
                  (fun v => Call o2 m2 (ByPtr v))). }
    split; [apply on_if_fmap|]. eapply on_other; [exact Hne|apply on_if_fmap].
Qed.

Lemma rebind_replaces_witness :
  (0 : N) = 0 /\ (Demo.receiver, 1) ≠ (Demo.receiver, 2)
  /\ calls (EventCallbackArg.run Demo.text_arg (CallInvoke <$> [5%Z])
              (EventCallbackArg.set 0 Demo.receiver 2
                 (EventCallbackArg.set Demo.Shifted_base Demo.receiver 1
                    EventCallbackArg.init),
               Demo.world0 0 0)).2
     = [Call Demo.receiver 2 (ByValue 5%Z)].
Proof.
  assert (H : (Demo.receiver, 1) ≠ (Demo.receiver, 2)) by (intros [=]).
  split; [reflexivity|]. split; [exact H|].
  destruct (rebind_replaces_binding Z Demo.Shifted_base 0 Demo.receiver 1
              Demo.receiver 2 eq_refl H) as (_ & Harg & _).
  destruct (Harg Demo.text_arg EventCallbackArg.init (Demo.world0 0 0) [5%Z])
    as (_ & _ & Hcalls & _).
  exact Hcalls.
Defined.

(** C4 as stated fails when the new object's [EventManager] base is not at
    offset 0: a slot bound to the plain counter in the cell after
    [receiver] is rebound to the [Shifted] counter at [receiver]; the next
    [invoke] runs [increment] on the counter bound before, and the new
    object's count stays 0. *)
Lemma rebind_to_shifted_object_calls_old_target :
  let old := (Demo.receiver + 1)%N in
  let s2 := EventCallbackVoid.set Demo.Shifted_base Demo.receiver 1
              (EventCallbackVoid.set 0 old 1 EventCallbackVoid.init) in
  let st := EventCallbackVoid.run Demo.text_void [CallInvoke ()] (s2, Demo.world1 0 100) in
  (old, (1 : N)) ≠ (Demo.receiver, 1)
  /\ calls st.2 = [Call old 1 NoArg]
  /\ mem st.2 !! Demo.receiver = Some 0%Z
  /\ mem st.2 !! old = Some 101%Z.
Proof.
  vm_compute. repeat split; discriminate.
Qed.




(** C9, as the code has it.  In every class, a slot driven by [invoke] and
    by [set] calls that pass two non-null pointers is empty at first and,
    after any such script, empty or bound; and once bound it is bound
    after any such script. *)
Theorem bound_slot_stays_bound_when_set_args_nonnull :
  forall (P : Type) (ops0 : list (op unit)) (ops1 : list (op P))
         (ops2 ops3 : list (op addr)),
    set_args nonnull ops0 = true -> set_args nonnull ops1 = true ->
    set_args nonnull ops2 = true -> set_args nonnull ops3 = true ->
    (forall (text : mptr -> addr -> gmap N P -> gmap N P) w,
        is_empty (EventCallbackVoid.fields EventCallbackVoid.init) = true
        /\ (let s := (EventCallbackVoid.run text ops0 (EventCallbackVoid.init, w)).1 in
            is_empty (EventCallbackVoid.fields s) = true
            \/ is_bound (EventCallbackVoid.fields s) = true)
        /\ (forall s, is_bound (EventCallbackVoid.fields s) = true ->
            is_bound (EventCallbackVoid.fields
                        (EventCallbackVoid.run text ops0 (s, w)).1) = true))
    /\ (forall (text : mptr -> addr -> addr -> gmap N P -> gmap N P) w,
        is_empty (EventCallbackArg.fields EventCallbackArg.init) = true
        /\ (let s := (EventCallbackArg.run text ops1 (EventCallbackArg.init, w)).1 in
            is_empty (EventCallbackArg.fields s) = true
            \/ is_bound (EventCallbackArg.fields s) = true)
        /\ (forall s, is_bound (EventCallbackArg.fields s) = true ->
            is_bound (EventCallbackArg.fields
                        (EventCallbackArg.run text ops1 (s, w)).1) = true))
    /\ (forall (text : mptr -> addr -> addr -> gmap N P -> gmap N P) w,
        is_empty (EventCallbackRefArg.fields EventCallbackRefArg.init) = true
        /\ (let s := (EventCallbackRefArg.run text ops2 (EventCallbackRefArg.init, w)).1 in
            is_empty (EventCallbackRefArg.fields s) = true
            \/ is_bound (EventCallbackRefArg.fields s) = true)
        /\ (forall s, is_bound (EventCallbackRefArg.fields s) = true ->
            is_bound (EventCallbackRefArg.fields
                        (EventCallbackRefArg.run text ops2 (s, w)).1) = true))
    /\ (forall (text : mptr -> addr -> addr -> gmap N P -> gmap N P) w,
        is_empty (EventCallbackPtrArg.fields EventCallbackPtrArg.init) = true
        /\ (let s := (EventCallbackPtrArg.run text ops3 (EventCallbackPtrArg.init, w)).1 in
            is_empty (EventCallbackPtrArg.fields s) = true
            \/ is_bound (EventCallbackPtrArg.fields s) = true)
        /\ (forall s, is_bound (EventCallbackPtrArg.fields s) = true ->
            is_bound (EventCallbackPtrArg.fields
                        (EventCallbackPtrArg.run text ops3 (s, w)).1) = true)).
Proof.
  intros P ops0 ops1 ops2 ops3 H0 H1 H2 H3.
  pose proof (set_args_weaken _ _ ops0 nonnull_paired H0) as P0.
  pose proof (set_args_weaken _ _ ops1 nonnull_paired H1) as P1.
  pose proof (set_args_weaken _ _ ops2 nonnull_paired H2) as P2.
  pose proof (set_args_weaken _ _ ops3 nonnull_paired H3) as P3.
  split; [|split; [|split]]; intros text w; (split; [reflexivity|]); split.
  - apply paired_states. rewrite void_run.
    apply (script_paired EventCallbackVoid.fields EventCallbackVoid.set _
             (fun o m (_ : unit) w => call_void text o m w));
      [done | apply void_invoke_spec | done | done].
  - intros s Hs. rewrite void_run.
    apply (script_stays_bound EventCallbackVoid.fields EventCallbackVoid.set _
             (fun o m (_ : unit) w => call_void text o m w));
      [done | apply void_invoke_spec | done | done].
  - apply paired_states. rewrite arg_run.
    apply (script_paired EventCallbackArg.fields EventCallbackArg.set _ (call_value text));
      [done | apply arg_invoke_spec | done | done].
  - intros s Hs. rewrite arg_run.
    apply (script_stays_bound EventCallbackArg.fields EventCallbackArg.set _ (call_value text));
      [done | apply arg_invoke_spec | done | done].
  - apply paired_states. rewrite ref_run.
    apply (script_paired EventCallbackRefArg.fields EventCallbackRefArg.set _ (call_ref text));
      [done | apply ref_invoke_spec | done | done].
  - intros s Hs. rewrite ref_run.
    apply (script_stays_bound EventCallbackRefArg.fields EventCallbackRefArg.set _ (call_ref text));
      [done | apply ref_invoke_spec | done | done].
  - apply paired_states. rewrite ptr_run.
    apply (script_paired EventCallbackPtrArg.fields EventCallbackPtrArg.set _ (call_ptr text));
      [done | apply ptr_invoke_spec | done | done].
  - intros s Hs. rewrite ptr_run.
    apply (script_stays_bound EventCallbackPtrArg.fields EventCallbackPtrArg.set _ (call_ptr text));
      [done | apply ptr_invoke_spec | done | done].
Qed.

Lemma bound_slot_stays_bound_witness :
  is_bound (EventCallbackRefArg.fields
    (EventCallbackRefArg.run Demo.text_arg
       [CallInvoke Demo.variable; CallSet 0 Demo.variable 2]
       (EventCallbackRefArg.Build Demo.receiver 1, Demo.world0 0 5)).1) = true.
Proof.
  destruct (bound_slot_stays_bound_when_set_args_nonnull Z
              [CallSet 0 Demo.receiver 1; CallInvoke ()]
              [CallSet 0 Demo.receiver 2; CallInvoke 5%Z]
              [CallInvoke Demo.variable; CallSet 0 Demo.variable 2]
              [CallSet 0 Demo.receiver 1; CallInvoke nullptr]
              eq_refl eq_refl eq_refl eq_refl) as (_ & _ & Href & _).
  destruct (Href Demo.text_arg (Demo.world0 0 5)) as (_ & _ & Hstay).
  apply Hstay. reflexivity.
Defined.

(** C9 as stated fails: [set] with two null pointers takes a bound slot
    back to the empty state, and [set] with one null pointer takes it to a
    state that is neither empty nor bound. *)
Lemma bound_slot_can_be_emptied :
  let s := EventCallbackVoid.set 0 Demo.receiver 1 EventCallbackVoid.init in
  let after ops := EventCallbackVoid.fields
                     (EventCallbackVoid.run Demo.text_void ops (s, Demo.world0 0 0)).1 in
  is_bound (EventCallbackVoid.fields s) = true
  /\ is_empty (after [CallSet 0 nullptr nullptr]) = true
  /\ is_empty (after [CallSet 0 Demo.receiver nullptr]) = false
  /\ is_bound (after [CallSet 0 Demo.receiver nullptr]) = false.
Proof. repeat split. Qed.

(** C5.  The value class hands the callee a parameter object of its own,
    holding a copy of the argument.  For a caller's variable [x] that holds
    [v], and a bound method that writes only its own object and its
    parameter: after [invoke v] the variable still holds [v]; if the slot is
    bound the member call made is the one with argument [v]; the callee's
    parameter object is gone; and a later assignment to [x] changes neither
    the recorded call nor any cell but [x]. *)
Theorem value_argument_is_copied :
  forall (P : Type) (text : mptr -> addr -> addr -> gmap N P -> gmap N P)
         (s : EventCallbackArg.t) (w : world P) (x : addr) (v v' : P),
    let o := EventCallbackArg.m_object s in
    let m := EventCallbackArg.m_eventReceive s in
    (forall param st a, a ≠ o -> a ≠ param -> text m o param st !! a = st !! a) ->
    mem w !! x = Some v -> x ≠ sp w -> x ≠ o ->
    let w1 := (EventCallbackArg.invoke text s v w).2 in
    mem w1 !! x = Some v
    /\ (is_bound (EventCallbackArg.fields s) = true ->
        calls w1 = calls w ++ [Call o m (ByValue v)]
        /\ mem w1 = delete (sp w) (text m o (sp w) (<[sp w := v]> (mem w)))
        /\ mem w1 !! sp w = None)
    /\ calls (assign x v' w1) = calls w1
    /\ (forall a, a ≠ x -> mem (assign x v' w1) !! a = mem w1 !! a).
Proof.
  intros P text s w x v v' o m Hfoot Hx Hsp Ho w1.
  assert (Hw1 : w1 = if is_bound (EventCallbackArg.fields s)
                     then call_value text o m v w else w).
  { unfold w1. by rewrite arg_invoke_spec. }
  split; [|split; [|split]].
  - rewrite Hw1. destruct (is_bound _); [|done]. simpl.
    rewrite lookup_delete_ne by done.
    rewrite Hfoot by done.
    by rewrite lookup_insert_ne.
  - intros Hb. rewrite Hw1, Hb. simpl. repeat split. apply lookup_delete_eq.
  - reflexivity.
  - intros a Ha. simpl. by rewrite lookup_insert_ne.
Qed.

Lemma Scaler_twice_footprint (o param : addr) (st : gmap N Z) (a : addr) :
  a ≠ o -> a ≠ param -> Demo.Scaler_twice o param st !! a = st !! a.
Proof.
  intros _ Ha. unfold Demo.Scaler_twice. by rewrite lookup_alter_ne.
Qed.

Lemma value_argument_witness :
  let w := Demo.world0 0 5 in
  let s := EventCallbackArg.set 0 Demo.receiver 1 EventCallbackArg.init in
  mem w !! Demo.variable = Some 5%Z
  /\ Demo.variable ≠ sp w
  /\ Demo.variable ≠ Demo.receiver
  /\ mem (EventCallbackArg.invoke Demo.text_arg s 5%Z w).2 !! Demo.variable = Some 5%Z.
Proof.
  intros w s.
  assert (Hx : mem w !! Demo.variable = Some 5%Z) by reflexivity.
  assert (Hsp : Demo.variable ≠ sp w) by (vm_compute; discriminate).
  assert (Ho : Demo.variable ≠ Demo.receiver) by (vm_compute; discriminate).
  split; [exact Hx|]. split; [exact Hsp|]. split; [exact Ho|].
  exact (proj1 (value_argument_is_copied Z Demo.text_arg s w Demo.variable 5%Z 99%Z
                  (Scaler_twice_footprint Demo.receiver) Hx Hsp Ho)).
Defined.

(** The recorded-argument check of C5: a slot bound to [Recorder::record] is
    invoked with the value 5 of the caller's variable; the variable is then
    set to 99; the receiver still holds 5 and the variable 99. *)
Example recorder_keeps_observed_value :
  let w := Demo.world0 0 5 in
  let s := EventCallbackArg.set 0 Demo.receiver 2 EventCallbackArg.init in
  let w2 := assign Demo.variable 99%Z (EventCallbackArg.invoke Demo.text_arg s 5%Z w).2 in
  mem w2 !! Demo.receiver = Some 5%Z /\ mem w2 !! Demo.variable = Some 99%Z.
Proof. vm_compute. split; reflexivity. Qed.

(** C6.  On a bound slot of the reference class, [invoke x] is the member
    call of the bound method on the bound object with the caller's object
    at [x] as its parameter: memory after [invoke] is what the method body
    left, at [x] as everywhere else.  A slot bound to a method that doubles
    its [int&] parameter turns a variable holding 5 into 10. *)
Theorem reference_argument_is_callers_storage :
  forall (P : Type) (text : mptr -> addr -> addr -> gmap N P -> gmap N P)
         (s : EventCallbackRefArg.t) (w : world P) (x : addr),
    is_bound (EventCallbackRefArg.fields s) = true ->
    let o := EventCallbackRefArg.m_object s in
    let m := EventCallbackRefArg.m_eventReceive s in
    let w1 := (EventCallbackRefArg.invoke text s x w).2 in
    EventCallbackRefArg.invoke text s x w = (s, call_ref text o m x w)
    /\ calls w1 = calls w ++ [Call o m (ByRef x)]
    /\ mem w1 = text m o x (mem w)
    /\ mem w1 !! x = text m o x (mem w) !! x
    /\ mem (EventCallbackRefArg.invoke Demo.text_arg
              (EventCallbackRefArg.set 0 Demo.receiver 1 EventCallbackRefArg.init)
              Demo.variable (Demo.world0 0 5)).2 !! Demo.variable = Some 10%Z.
Proof.
  intros P text s w x Hb o m w1.
  assert (Hinv : EventCallbackRefArg.invoke text s x w = (s, call_ref text o m x w)).
  { by rewrite ref_invoke_spec, Hb. }
  unfold w1. rewrite Hinv. simpl.
  split; [done|]. split; [done|]. split; [done|]. split; [done|].
  vm_compute. reflexivity.
Qed.

Lemma reference_argument_witness :
  let s := EventCallbackRefArg.set 0 Demo.receiver 1 EventCallbackRefArg.init in
  is_bound (EventCallbackRefArg.fields s) = true
  /\ mem (EventCallbackRefArg.invoke Demo.text_arg s Demo.variable (Demo.world0 0 5)).2
     = Demo.Scaler_twice Demo.receiver Demo.variable (mem (Demo.world0 0 5)).
Proof.
  intros s.
  assert (Hb : is_bound (EventCallbackRefArg.fields s) = true) by reflexivity.
  split; [exact Hb|].
  destruct (reference_argument_is_callers_storage Z Demo.text_arg s
              (Demo.world0 0 5) Demo.variable Hb) as (_ & _ & Hmem & _).
  exact Hmem.
Defined.

(** C7.  On a bound slot of the pointer class, [invoke p] is the member
    call of the bound method on the bound object with the pointer [p]
    itself as argument, whatever [p] is; for the null pointer the call is
    made all the same and the callee receives [nullptr]. *)
Theorem pointer_argument_passes_through :
  forall (P : Type) (text : mptr -> addr -> addr -> gmap N P -> gmap N P)
         (s : EventCallbackPtrArg.t) (w : world P) (p : addr),
    is_bound (EventCallbackPtrArg.fields s) = true ->
    let o := EventCallbackPtrArg.m_object s in
    let m := EventCallbackPtrArg.m_eventReceive s in
    EventCallbackPtrArg.invoke text s p w
    = (s, {| mem := text m o p (mem w);
             sp := sp w;
             calls := calls w ++ [Call o m (ByPtr p)] |})
    /\ EventCallbackPtrArg.invoke text s nullptr w
       = (s, {| mem := text m o nullptr (mem w);
                sp := sp w;
                calls := calls w ++ [Call o m (ByPtr nullptr)] |}).
Proof.
  intros P text s w p Hb o m. by rewrite !ptr_invoke_spec, Hb.
Qed.

Lemma pointer_argument_witness :
  let s := EventCallbackPtrArg.set 0 Demo.receiver 1 EventCallbackPtrArg.init in
  let w1 := (EventCallbackPtrArg.invoke Demo.text_ptr s nullptr (Demo.world0 7 5)).2 in
  is_bound (EventCallbackPtrArg.fields s) = true
  /\ calls w1 = [Call Demo.receiver 1 (ByPtr nullptr)]
  /\ mem w1 !! Demo.receiver = Some 0%Z.
Proof.
  intros s w1.
  assert (Hb : is_bound (EventCallbackPtrArg.fields s) = true) by reflexivity.
  split; [exact Hb|].
  destruct (pointer_argument_passes_through Z Demo.text_ptr s (Demo.world0 7 5)
              Demo.variable Hb) as (_ & Hnull).
  unfold w1. rewrite Hnull. split; reflexivity.
Defined.

(** * Whole scripts

    The claims above look at one [set] followed by [invoke]s.  The facts
    below are about any interleaving of [set] and [invoke], with any
    pointers passed to [set]. *)

Lemma dispatches_nonnull {A} (ops : list (op A)) f :
  Forall (fun d => d.1.1 ≠ nullptr /\ d.1.2 ≠ nullptr) (dispatches ops f).
Proof.
  revert f. induction ops as [|[b ob me|v] ops IH]; intros f; simpl; [constructor|apply IH|].
  destruct (is_bound f) eqn:Hb; [|apply IH].
  constructor; [|apply IH]. simpl. by apply nonnull_true.
Qed.

Lemma dispatches_at_most {A} (ops : list (op A)) f :
  (length (dispatches ops f) <= invokes ops)%nat.
Proof.
  revert f. induction ops as [|[b ob me|v] ops IH]; intros f; simpl; [lia|apply IH|].
  destruct (is_bound f); simpl; specialize (IH f); lia.
Qed.

Lemma dispatches_all {A} (ops : list (op A)) f :
  is_bound f = true -> set_args nonnull ops = true ->
  length (dispatches ops f) = invokes ops.
Proof.
  revert f. induction ops as [|[b ob me|v] ops IH]; intros f Hb Hops; [done| |].
  - apply set_args_cons in Hops as [Ho Hops]. simpl. apply IH; [|done].
    change (nonnull (static_cast b ob) me = true). by rewrite nonnull_static_cast.
  - apply set_args_cons in Hops as [_ Hops]. simpl. rewrite Hb. simpl.
    f_equal. by apply IH.
Qed.

Section Replay.
Context {P T A : Type}.
Variable fields : T -> addr * mptr.
Variable set : N -> addr -> mptr -> T -> T.
Variable invoke : T -> A -> world P -> T * world P.
Variable exec : addr -> mptr -> A -> world P -> world P.
Variable event : A -> passed P.

Hypothesis fields_set : forall b o m s,
  fields (set b o m s) = (static_cast b o, reinterpret_cast m).
Hypothesis invoke_spec : forall s a w,
  invoke s a w = (s, if is_bound (fields s) then exec (fields s).1 (fields s).2 a w else w).
Hypothesis calls_exec : forall o m a w,
  calls (exec o m a w) = calls w ++ [Call o m (event a)].

Lemma script_fields (ops : list (op A)) s w :
  fields (foldl (client_step set invoke) (s, w) ops).1 = last_set ops (fields s).
Proof.
  revert s w. induction ops as [|[b ob me|v] ops IH]; intros s w; [done| |].
  - simpl. rewrite IH. by rewrite fields_set.
  - simpl. rewrite invoke_spec. apply IH.
Qed.

Lemma script_world (ops : list (op A)) s w :
  (foldl (client_step set invoke) (s, w) ops).2
  = foldl (fun w d => exec d.1.1 d.1.2 d.2 w) w (dispatches ops (fields s)).
Proof.
  revert s w. induction ops as [|[b ob me|v] ops IH]; intros s w; [done| |].
  - simpl. rewrite IH. by rewrite fields_set.
  - simpl. rewrite invoke_spec. destruct (is_bound (fields s)); simpl; apply IH.
Qed.

Lemma script_calls (ops : list (op A)) s w :
  calls (foldl (client_step set invoke) (s, w) ops).2
  = calls w ++ ((fun d => Call d.1.1 d.1.2 (event d.2)) <$> dispatches ops (fields s)).
Proof.
  rewrite script_world.
  apply (calls_foldl (fun d => exec d.1.1 d.1.2 d.2)
           (fun d => Call d.1.1 d.1.2 (event d.2))).
  intros d w'. apply calls_exec.
Qed.

Lemma script_calls_nonnull (ops : list (op A)) s w :
  exists new,
    calls (foldl (client_step set invoke) (s, w) ops).2 = calls w ++ new
    /\ Forall through_nonnull new.
Proof.
  eexists. split; [apply script_calls|].
  apply Forall_fmap. eapply Forall_impl; [apply dispatches_nonnull|].
  intros d Hd. exact Hd.
Qed.

Lemma script_calls_at_most (ops : list (op A)) s w :
  (length (calls (foldl (client_step set invoke) (s, w) ops).2)
   <= length (calls w) + invokes ops)%nat.
Proof.
  rewrite script_calls, length_app, length_fmap.
  pose proof (dispatches_at_most ops (fields s)). lia.
Qed.

Lemma script_calls_all (ops : list (op A)) s w :
  is_bound (fields s) = true -> set_args nonnull ops = true ->
  length (calls (foldl (client_step set invoke) (s, w) ops).2)
  = (length (calls w) + invokes ops)%nat.
Proof.
  intros Hb Hops. rewrite script_calls, length_app, length_fmap.
  by rewrite dispatches_all.
Qed.
End Replay.

(** The four classes meet the assumptions of [Replay]. *)
Ltac replay_void lem text :=
  rewrite void_run;
  apply (lem _ _ _ EventCallbackVoid.fields EventCallbackVoid.set
           (fun s (_ : unit) w => EventCallbackVoid.invoke text s w)
           (fun o m (_ : unit) w => call_void text o m w) (fun _ => NoArg)).

Ltac replay_arg lem text :=
  rewrite arg_run;
  apply (lem _ _ _ EventCallbackArg.fields EventCallbackArg.set
           (EventCallbackArg.invoke text) (call_value text) ByValue).

Ltac replay_ref lem text :=
  rewrite ref_run;
  apply (lem _ _ _ EventCallbackRefArg.fields EventCallbackRefArg.set
           (EventCallbackRefArg.invoke text) (call_ref text) ByRef).

Ltac replay_ptr lem text :=
  rewrite ptr_run;
  apply (lem _ _ _ EventCallbackPtrArg.fields EventCallbackPtrArg.set
           (EventCallbackPtrArg.invoke text) (call_ptr text) ByPtr).

Ltac replay_side text :=
  first [ done
        | intros; by apply void_invoke_spec
        | apply arg_invoke_spec
        | apply ref_invoke_spec
        | apply ptr_invoke_spec ].

(** X1.  Last [set] wins.  In every class, after any script of [set] and
    [invoke] calls the slot stores what the last [set] of the script
    stored, the address of its object's [EventManager] base (null for a
    null object) and its method, and what the slot stored before if the
    script has no [set]; the [invoke]s in between and the method bodies
    they run have no part in it. *)
Theorem script_leaves_last_set :
  forall (P : Type),
    (forall (text : mptr -> addr -> gmap N P -> gmap N P) ops s w,
        EventCallbackVoid.fields (EventCallbackVoid.run text ops (s, w)).1
        = last_set ops (EventCallbackVoid.fields s))
    /\ (forall (text : mptr -> addr -> addr -> gmap N P -> gmap N P) ops s w,
        EventCallbackArg.fields (EventCallbackArg.run text ops (s, w)).1
        = last_set ops (EventCallbackArg.fields s))
    /\ (forall (text : mptr -> addr -> addr -> gmap N P -> gmap N P) ops s w,
        EventCallbackRefArg.fields (EventCallbackRefArg.run text ops (s, w)).1
        = last_set ops (EventCallbackRefArg.fields s))
    /\ (forall (text : mptr -> addr -> addr -> gmap N P -> gmap N P) ops s w,
        EventCallbackPtrArg.fields (EventCallbackPtrArg.run text ops (s, w)).1
        = last_set ops (EventCallbackPtrArg.fields s)).
Proof.
  intros P. split; [|split; [|split]]; intros text ops s w.
  - rewrite void_run.
    apply (script_fields EventCallbackVoid.fields EventCallbackVoid.set
             (fun s (_ : unit) w => EventCallbackVoid.invoke text s w)
             (fun o m (_ : unit) w => call_void text o m w));
      replay_side text.
  - rewrite arg_run.
    apply (script_fields EventCallbackArg.fields EventCallbackArg.set
             (EventCallbackArg.invoke text) (call_value text)); replay_side text.
  - rewrite ref_run.
    apply (script_fields EventCallbackRefArg.fields EventCallbackRefArg.set
             (EventCallbackRefArg.invoke text) (call_ref text)); replay_side text.
  - rewrite ptr_run.
    apply (script_fields EventCallbackPtrArg.fields EventCallbackPtrArg.set
             (EventCallbackPtrArg.invoke text) (call_ptr text)); replay_side text.
Qed.

(** X2.  A script is the replay of its dispatches.  In every class, the
    world after any script is the world before it with the member calls of
    [dispatches] made in order, each through the call shape of the class,
    and the call trace grows by exactly those calls.  Which calls are made
    is thus fixed by the script alone: an [invoke] is a call when the last
    [set] before it passed two non-null pointers, and then a call of that
    method on the address that [set] stored, the object's [EventManager]
    base. *)
Theorem script_is_replay_of_dispatches :
  forall (P : Type),
    (forall (text : mptr -> addr -> gmap N P -> gmap N P) ops s w,
        let ds := dispatches ops (EventCallbackVoid.fields s) in
        (EventCallbackVoid.run text ops (s, w)).2
        = foldl (fun w d => call_void text d.1.1 d.1.2 w) w ds
        /\ calls (EventCallbackVoid.run text ops (s, w)).2
           = calls w ++ ((fun d => Call d.1.1 d.1.2 NoArg) <$> ds))
    /\ (forall (text : mptr -> addr -> addr -> gmap N P -> gmap N P) ops s w,
        let ds := dispatches ops (EventCallbackArg.fields s) in
        (EventCallbackArg.run text ops (s, w)).2
        = foldl (fun w d => call_value text d.1.1 d.1.2 d.2 w) w ds
        /\ calls (EventCallbackArg.run text ops (s, w)).2
           = calls w ++ ((fun d => Call d.1.1 d.1.2 (ByValue d.2)) <$> ds))
    /\ (forall (text : mptr -> addr -> addr -> gmap N P -> gmap N P) ops s w,
        let ds := dispatches ops (EventCallbackRefArg.fields s) in
        (EventCallbackRefArg.run text ops (s, w)).2
        = foldl (fun w d => call_ref text d.1.1 d.1.2 d.2 w) w ds
        /\ calls (EventCallbackRefArg.run text ops (s, w)).2
           = calls w ++ ((fun d => Call d.1.1 d.1.2 (ByRef d.2)) <$> ds))
    /\ (forall (text : mptr -> addr -> addr -> gmap N P -> gmap N P) ops s w,
        let ds := dispatches ops (EventCallbackPtrArg.fields s) in
        (EventCallbackPtrArg.run text ops (s, w)).2
        = foldl (fun w d => call_ptr text d.1.1 d.1.2 d.2 w) w ds
        /\ calls (EventCallbackPtrArg.run text ops (s, w)).2
           = calls w ++ ((fun d => Call d.1.1 d.1.2 (ByPtr d.2)) <$> ds)).
Proof.
  intros P. split; [|split; [|split]]; intros text ops s w ds; split.
  - rewrite void_run.
    apply (script_world EventCallbackVoid.fields EventCallbackVoid.set
             (fun s (_ : unit) w => EventCallbackVoid.invoke text s w)
             (fun o m (_ : unit) w => call_void text o m w));
      replay_side text.
  - replay_void @script_calls text; replay_side text.
  - rewrite arg_run.
    apply (script_world EventCallbackArg.fields EventCallbackArg.set
             (EventCallbackArg.invoke text) (call_value text)); replay_side text.
  - replay_arg @script_calls text; replay_side text.
  - rewrite ref_run.
    apply (script_world EventCallbackRefArg.fields EventCallbackRefArg.set
             (EventCallbackRefArg.invoke text) (call_ref text)); replay_side text.
  - replay_ref @script_calls text; replay_side text.
  - rewrite ptr_run.
    apply (script_world EventCallbackPtrArg.fields EventCallbackPtrArg.set
             (EventCallbackPtrArg.invoke text) (call_ptr text)); replay_side text.
  - replay_ptr @script_calls text; replay_side text.
Qed.

(** X3.  No call through a null pointer.  In every class, whatever
    pointers the [set]s of a script pass, every member call the script
    makes has a non-null object and a non-null method: the guard of
    [invoke] filters the rest. *)
Theorem calls_never_go_through_null :
  forall (P : Type),
    (forall (text : mptr -> addr -> gmap N P -> gmap N P) ops s w,
        exists new,
          calls (EventCallbackVoid.run text ops (s, w)).2 = calls w ++ new
          /\ Forall through_nonnull new)
    /\ (forall (text : mptr -> addr -> addr -> gmap N P -> gmap N P) ops s w,
        exists new,
          calls (EventCallbackArg.run text ops (s, w)).2 = calls w ++ new
          /\ Forall through_nonnull new)
    /\ (forall (text : mptr -> addr -> addr -> gmap N P -> gmap N P) ops s w,
        exists new,
          calls (EventCallbackRefArg.run text ops (s, w)).2 = calls w ++ new
          /\ Forall through_nonnull new)
    /\ (forall (text : mptr -> addr -> addr -> gmap N P -> gmap N P) ops s w,
        exists new,
          calls (EventCallbackPtrArg.run text ops (s, w)).2 = calls w ++ new
          /\ Forall through_nonnull new).
Proof.
  intros P. split; [|split; [|split]]; intros text ops s w.
  - replay_void @script_calls_nonnull text; replay_side text.
  - replay_arg @script_calls_nonnull text; replay_side text.
  - replay_ref @script_calls_nonnull text; replay_side text.
  - replay_ptr @script_calls_nonnull text; replay_side text.
Qed.

(** X4.  At most one call per [invoke].  In every class, a script adds to
    the call trace at most as many member calls as it has [invoke]s; [set]
    never calls anything. *)
Theorem at_most_one_call_per_invoke :
  forall (P : Type),
    (forall (text : mptr -> addr -> gmap N P -> gmap N P) ops s w,
        (length (calls (EventCallbackVoid.run text ops (s, w)).2)
         <= length (calls w) + invokes ops)%nat)
    /\ (forall (text : mptr -> addr -> addr -> gmap N P -> gmap N P) ops s w,
        (length (calls (EventCallbackArg.run text ops (s, w)).2)
         <= length (calls w) + invokes ops)%nat)
    /\ (forall (text : mptr -> addr -> addr -> gmap N P -> gmap N P) ops s w,
        (length (calls (EventCallbackRefArg.run text ops (s, w)).2)
         <= length (calls w) + invokes ops)%nat)
    /\ (forall (text : mptr -> addr -> addr -> gmap N P -> gmap N P) ops s w,
        (length (calls (EventCallbackPtrArg.run text ops (s, w)).2)
         <= length (calls w) + invokes ops)%nat).
Proof.
  intros P. split; [|split; [|split]]; intros text ops s w.
  - replay_void @script_calls_at_most text; replay_side text.
  - replay_arg @script_calls_at_most text; replay_side text.
  - replay_ref @script_calls_at_most text; replay_side text.
  - replay_ptr @script_calls_at_most text; replay_side text.
Qed.

(** X5.  Exactly one call per [invoke] while bound.  In every class, on a
    slot that holds two non-null pointers, a script whose [set]s all pass
    two non-null pointers makes one member call for each of its [invoke]s,
    however [set]s and [invoke]s are interleaved. *)
Theorem one_call_per_invoke_while_bound :
  forall (P : Type) (o : addr) (m : mptr) (ops0 : list (op unit))
         (ops1 : list (op P)) (ops2 ops3 : list (op addr)),
    nonnull o m = true ->
    set_args nonnull ops0 = true -> set_args nonnull ops1 = true ->
    set_args nonnull ops2 = true -> set_args nonnull ops3 = true ->
    (forall (text : mptr -> addr -> gmap N P -> gmap N P) w,
        length (calls (EventCallbackVoid.run text ops0
                         (EventCallbackVoid.Build o m, w)).2)
        = (length (calls w) + invokes ops0)%nat)
    /\ (forall (text : mptr -> addr -> addr -> gmap N P -> gmap N P) w,
        length (calls (EventCallbackArg.run text ops1
                         (EventCallbackArg.Build o m, w)).2)
        = (length (calls w) + invokes ops1)%nat)
    /\ (forall (text : mptr -> addr -> addr -> gmap N P -> gmap N P) w,
        length (calls (EventCallbackRefArg.run text ops2
                         (EventCallbackRefArg.Build o m, w)).2)
        = (length (calls w) + invokes ops2)%nat)
    /\ (forall (text : mptr -> addr -> addr -> gmap N P -> gmap N P) w,
        length (calls (EventCallbackPtrArg.run text ops3
                         (EventCallbackPtrArg.Build o m, w)).2)
        = (length (calls w) + invokes ops3)%nat).
Proof.
  intros P o m ops0 ops1 ops2 ops3 Hom H0 H1 H2 H3.
  split; [|split; [|split]]; intros text w.
  - replay_void @script_calls_all text; replay_side text.
  - replay_arg @script_calls_all text; replay_side text.
  - replay_ref @script_calls_all text; replay_side text.
  - replay_ptr @script_calls_all text; replay_side text.
Qed.

Lemma one_call_per_invoke_witness :
  length (calls (EventCallbackRefArg.run Demo.text_arg
                   [CallInvoke Demo.variable; CallSet 0 Demo.variable 2;
                    CallInvoke Demo.variable; CallInvoke Demo.receiver]
                   (EventCallbackRefArg.Build Demo.receiver 1, Demo.world0 0 5)).2)
  = 3%nat.
Proof.
  destruct (one_call_per_invoke_while_bound Z Demo.receiver 1
              [CallSet 0 Demo.receiver 1; CallInvoke ()]
              [CallInvoke 5%Z; CallSet 0 Demo.receiver 2; CallInvoke 7%Z]
              [CallInvoke Demo.variable; CallSet 0 Demo.variable 2;
               CallInvoke Demo.variable; CallInvoke Demo.receiver]
              [CallInvoke nullptr]
              eq_refl eq_refl eq_refl eq_refl eq_refl) as (_ & _ & Href & _).
  exact (Href Demo.text_arg (Demo.world0 0 5)).
Defined.

(** X6.  A by-value callee that only writes its parameter is invisible.
    In the value class, when the bound method writes no cell but its own
    parameter and nothing lives where the parameter object is placed,
    [invoke] leaves the caller's memory exactly as it was: the parameter
    object and what the callee did to it are gone on return. *)
Theorem value_invoke_leaves_memory_when_callee_writes_parameter_only :
  forall (P : Type) (text : mptr -> addr -> addr -> gmap N P -> gmap N P)
         (s : EventCallbackArg.t) (w : world P) (v : P),
    (forall param st a, a ≠ param ->
       text (EventCallbackArg.m_eventReceive s) (EventCallbackArg.m_object s) param st !! a
       = st !! a) ->
    mem w !! sp w = None ->
    mem (EventCallbackArg.invoke text s v w).2 = mem w
    /\ sp (EventCallbackArg.invoke text s v w).2 = sp w.
Proof.
  intros P text s w v Hfoot Hfree.
  rewrite arg_invoke_spec. destruct (is_bound _); [|done]. simpl.
  split; [|done]. apply map_eq. intros a.
  destruct (decide (a = sp w)) as [->|Ha].
  - by rewrite lookup_delete_eq.
  - rewrite lookup_delete_ne by done. rewrite Hfoot by done.
    by rewrite lookup_insert_ne.
Qed.

Lemma Scaler_twice_writes_parameter (o param : addr) (st : gmap N Z) (a : addr) :
  a ≠ param -> Demo.Scaler_twice o param st !! a = st !! a.
Proof. intros Ha. unfold Demo.Scaler_twice. by rewrite lookup_alter_ne. Qed.

Lemma value_invoke_leaves_memory_witness :
  let w := Demo.world0 0 5 in
  let s := EventCallbackArg.set 0 Demo.receiver 1 EventCallbackArg.init in
  mem w !! sp w = None
  /\ mem (EventCallbackArg.invoke Demo.text_arg s 5%Z w).2 = mem w.
Proof.
  intros w s.
  assert (Hfree : mem w !! sp w = None) by reflexivity.
  split; [exact Hfree|].
  exact (proj1 (value_invoke_leaves_memory_when_callee_writes_parameter_only
                  Z Demo.text_arg s w 5%Z
                  (Scaler_twice_writes_parameter Demo.receiver) Hfree)).
Defined.
